(** * PreparedSQL: named placeholders to positional placeholders

    A shallow embedding of [SqlPilot] (src/index.js), the function that
    rewrites the [:name] placeholders of an SQL text into [?] marks and
    collects the bound values, followed by the properties its specification
    states.

    - JavaScript strings are [string]s; the pattern only distinguishes the
      colon and the ASCII class [[a-zA-Z0-9_]], every other character is
      copied.
    - The [params] argument is an object: its own data properties (a finite
      map from names to values) and its prototype.  Bound values are data:
      [undefined], an opaque value that is neither an array nor a function,
      or an array, whose slots hold a value or are holes.
    - A call either completes normally with the pair [[newSql, newParams]]
      or throws; the array [newParams] the callback pushes to is threaded
      through the callback as explicit state. *)

From Stdlib Require Import String Ascii.
From stdpp Require Import gmap strings list.
From Equations Require Import Equations.

Set Default Proof Using "Type".

(** Appending to a string literal computes. *)
#[local] Arguments String.append : simpl nomatch.

(** * Definitions *)

(** ** Values, objects and completions *)

(** A bound value.  [Scalar] stands for any value on which [Array.isArray]
    is false and that cannot be called (numbers, strings, booleans, [null],
    plain objects); the code never inspects it.  An array is the list of its
    slots, from index 0 to its length: [Some] an element, or [None] a hole
    (as in [[1, , 3]] or [new Array(3)]). *)
#[warnings="-register-all"]
Inductive value (A : Type) : Type :=
  | Undefined
  | Scalar (a : A)
  | Array (items : list (option (value A))).
Arguments Undefined {A}.
Arguments Scalar {A} a.
Arguments Array {A} items.

(** The array literal [[e1, ..., en]], without hole. *)
Definition dense {A} (elems : list (value A)) : value A :=
  Array (Some <$> elems).

(** The elements of an array, in index order, holes left out. *)
Definition elements {A} (items : list (option (value A))) : list (value A) :=
  omap id items.

(** The prototype of the [params] object: [Object.prototype] for an object
    literal or a parsed JSON object, none for [Object.create(null)]. *)
Inductive prototype : Type := ObjectPrototype | NullPrototype.

Record object (A : Type) : Type := Object {
  own : gmap string (value A);
  proto : prototype
}.
Arguments Object {A} own proto.
Arguments own {A} o.
Arguments proto {A} o.

(** The object literal [{ k1: v1, ... }]. *)
Definition literal {A} (props : list (string * value A)) : object A :=
  Object (list_to_map props) ObjectPrototype.

Inductive exception : Type := TypeError.

Inductive completion (T : Type) : Type :=
  | Normal (x : T)
  | Throw (e : exception).
Arguments Normal {T} x.
Arguments Throw {T} e.

(** An exception raised by a step is raised by the whole sequence. *)
#[global] Instance completion_ret : MRet completion := @Normal.
#[global] Instance completion_bind : MBind completion := λ T U k c,
  match c with
  | Normal x => k x
  | Throw e => Throw e
  end.
#[global] Instance completion_fmap : FMap completion := λ T U f c,
  match c with
  | Normal x => Normal (f x)
  | Throw e => Throw e
  end.

(** What the member expression [params.hasOwnProperty] evaluates to: the
    native method found on [Object.prototype], or something that cannot be
    called (an own data property of that name shadows the method; an object
    without prototype has no such property and yields [undefined]).  Bound
    values are data: bindings that supply a function under that name are
    not described. *)
Inductive method : Type := NativeHasOwnProperty | NotCallable.

Definition get_hasOwnProperty {A} (params : object A) : method :=
  match own params !! "hasOwnProperty" with
  | Some _ => NotCallable
  | None =>
      match proto params with
      | ObjectPrototype => NativeHasOwnProperty
      | NullPrototype => NotCallable
      end
  end.

(** [params.hasOwnProperty(key)]: calling what is not a function throws a
    [TypeError]. *)
Definition hasOwnProperty {A} (params : object A) (key : string) : completion bool :=
  match get_hasOwnProperty params with
  | NativeHasOwnProperty => Normal (bool_decide (is_Some (own params !! key)))
  | NotCallable => Throw TypeError
  end.

(** [params[key]], read after the own-property test succeeded: the value of
    the own data property. *)
Definition get {A} (params : object A) (key : string) : value A :=
  default Undefined (own params !! key).

(** ** The pattern [/:([a-zA-Z0-9_]+)/g] *)

Definition is_word_char (c : ascii) : bool :=
  ((("a" <=? c) && (c <=? "z")) || (("A" <=? c) && (c <=? "Z"))
   || (("0" <=? c) && (c <=? "9")) || (c =? "_"))%char.

(** The greedy [[a-zA-Z0-9_]*] at the start of [s], and what follows it. *)
Fixpoint take_word (s : string) : string :=
  match s with
  | String c s' => if is_word_char c then String c (take_word s') else ""
  | EmptyString => ""
  end.

Fixpoint drop_word (s : string) : string :=
  match s with
  | String c s' => if is_word_char c then drop_word s' else s
  | EmptyString => ""
  end.

(** The template cut at the matches of the global pattern: a character no
    match covers, or a match with its captured key (the matched text is the
    colon followed by the key). *)
Inductive piece : Type :=
  | Lit (c : ascii)
  | Tok (key : string).

(** The matches are found left to right: at a colon followed by a non-empty
    word there is a match, and the search resumes behind it; elsewhere the
    search moves one character on. *)
#[local] Unset Equations With Funext.
Equations? scan (s : string) : list piece by wf (String.length s) lt :=
  scan EmptyString := [];
  scan (String c s') with (c =? ":")%char, take_word s' => {
    | true, String k key => Tok (String k key) :: scan (drop_word s')
    | _, _ => Lit c :: scan s' }.
Proof.
  clear. induction s' as [|d s' IH]; simpl; [lia|].
  destruct (is_word_char d); simpl; lia.
Qed.

(** ** The function *)

Section SqlPilot.
Context {A : Type}.
Implicit Types (params : object A) (newParams : list (value A)).

(** [newParams.push(item)] *)
Definition push newParams (item : value A) : list (value A) :=
  newParams ++ [item].

(** [value.forEach(function (item) { newParams.push(item); })]: the callback
    is not called for a hole. *)
Definition forEach_push (items : list (option (value A))) newParams
    : list (value A) :=
  fold_left (λ acc slot, match slot with
                         | Some item => push acc item
                         | None => acc
                         end) items newParams.

(** [value.map(function () { return "?"; })]: the callback is not called for
    a hole, which stays a hole of the new array. *)
Definition map_question (items : list (option (value A))) : list (option string) :=
  (λ slot : option (value A), (λ _, "?") <$> slot) <$> items.

(** [array.join(separator)]: a hole is joined as the empty string. *)
Definition join (separator : string) (array : list (option string)) : string :=
  String.concat separator (default "" <$> array).

(** [value.map(function () { return "?"; }).join(", ")] *)
Definition placeholders (items : list (option (value A))) : string :=
  join ", " (map_question items).

(** The replacement callback: [matched] is the matched text, [key] the
    captured group; it returns the replacement text and the updated
    [newParams]. *)
Definition replacer params (matched key : string) newParams
    : completion (string * list (value A)) :=
  present ← hasOwnProperty params key;
  if (present : bool) then
    match get params key with
    | Array items =>
        Normal ("(" +:+ placeholders items +:+ ")", forEach_push items newParams)
    | value => Normal ("?", push newParams value)
    end
  else Normal (matched, newParams).

(** [sql.replace(pattern, callback)] over the cut template: the callback is
    called once per match, in order; unmatched characters are copied. *)
Fixpoint replace params (pieces : list piece) newParams
    : completion (string * list (value A)) :=
  match pieces with
  | [] => Normal ("", newParams)
  | Lit c :: rest =>
      '(out, newParams') ← replace params rest newParams;
      Normal (String c out, newParams')
  | Tok key :: rest =>
      '(text, newParams1) ← replacer params (":" +:+ key) key newParams;
      '(out, newParams2) ← replace params rest newParams1;
      Normal (text +:+ out, newParams2)
  end.

Definition SqlPilot (sql : string) params : completion (string * list (value A)) :=
  let newParams := [] in
  replace params (scan sql) newParams.

End SqlPilot.

(** ** Notions of the specification *)

(** Number of [?] marks in a text. *)
Fixpoint question_marks (s : string) : nat :=
  match s with
  | String c s' => (if (c =? "?")%char then 1 else 0) + question_marks s'
  | EmptyString => 0
  end.

(** Every character of [s] is in the class [[a-zA-Z0-9_]]. *)
Fixpoint all_word_chars (s : string) : bool :=
  match s with
  | String c s' => is_word_char c && all_word_chars s'
  | EmptyString => true
  end.

Definition starts_with_word_char (s : string) : bool :=
  match s with
  | String c _ => is_word_char c
  | EmptyString => false
  end.

(** [sql] reads [pre], then the placeholder token [:key], then [post]: the key
    is a non-empty word and the token is maximal (no word character follows
    it).  A colon never lies inside a match, so the token is a match of the
    global pattern whatever [pre] is ([scan_token] below). *)
Record token_at (sql pre key post : string) : Prop := {
  token_split : sql = pre +:+ ":" +:+ key +:+ post;
  token_word : all_word_chars key = true;
  token_nonempty : key ≠ "";
  token_maximal : starts_with_word_char post = false
}.

(** [s] is matched by [:[a-zA-Z0-9_]+]. *)
Definition matches_pattern (s : string) : Prop :=
  ∃ key, s = ":" +:+ key ∧ key ≠ "" ∧ all_word_chars key = true.

(** [sql] has a substring the pattern matches. *)
Definition has_placeholder (sql : string) : Prop :=
  ∃ pre mid post, sql = pre +:+ mid +:+ post ∧ matches_pattern mid.

(** The same, computed: a colon with a word character behind it. *)
Fixpoint find_placeholder (sql : string) : bool :=
  match sql with
  | String c s => ((c =? ":")%char && starts_with_word_char s) || find_placeholder s
  | EmptyString => false
  end.

(** Each of [segments] behind one more token [:key]. *)
Fixpoint occurrences (key : string) (segments : list string) : string :=
  match segments with
  | [] => ""
  | segment :: rest => ":" +:+ key +:+ segment +:+ occurrences key rest
  end.

(** The text the pieces were cut from. *)
Fixpoint text_of (pieces : list piece) : string :=
  match pieces with
  | [] => ""
  | Lit c :: rest => String c (text_of rest)
  | Tok key :: rest => ":" +:+ key +:+ text_of rest
  end.

(** The captured keys, in order. *)
Fixpoint keys_of (pieces : list piece) : list string :=
  match pieces with
  | [] => []
  | Lit _ :: rest => keys_of rest
  | Tok key :: rest => key :: keys_of rest
  end.

Section notions.
Context {A : Type}.
Implicit Types (params : object A) (pieces : list piece) (key : string).
Implicit Types (outs : list (string * list (value A))).

(** The own-property test of [params] can be called: the member expression
    [params.hasOwnProperty] finds the method of [Object.prototype]. *)
Definition inherits_hasOwnProperty params : Prop :=
  get_hasOwnProperty params = NativeHasOwnProperty.

#[global] Instance inherits_hasOwnProperty_dec params :
  Decision (inherits_hasOwnProperty params).
Proof. unfold inherits_hasOwnProperty. solve_decision. Defined.

(** What the output text can tell of a bound value: whether it is an array,
    and then which of its slots hold an element. *)
Definition shape (value : value A) : option (list bool) :=
  match value with
  | Array items => Some ((λ slot, if slot is Some _ then true else false) <$> items)
  | _ => None
  end.

(** The mark of a slot in a group: [?] for an element, nothing for a hole. *)
Definition mark (slot : option (value A)) : string :=
  if slot is Some _ then "?" else "".

(** What a match of [key] is replaced by, and the values it binds, when the
    own-property test runs. *)
Definition replacement params key : string * list (value A) :=
  match own params !! key with
  | Some (Array items) =>
      ("(" +:+ String.concat ", " (mark <$> items) +:+ ")", elements items)
  | Some value => ("?", [value])
  | None => (":" +:+ key, [])
  end.

(** The output text and the bound values of a cut template, when the
    own-property test runs. *)
Fixpoint rendered params pieces : string :=
  match pieces with
  | [] => ""
  | Lit c :: rest => String c (rendered params rest)
  | Tok key :: rest => (replacement params key).1 +:+ rendered params rest
  end.

Fixpoint collected params pieces : list (value A) :=
  match pieces with
  | [] => []
  | Lit c :: rest => collected params rest
  | Tok key :: rest => (replacement params key).2 ++ collected params rest
  end.

(** One [?] before the output of each segment, and one copy of the value
    [v] before the values each segment binds. *)
Fixpoint resolved_text outs : string :=
  match outs with
  | [] => ""
  | out :: rest => "?" +:+ out.1 +:+ resolved_text rest
  end.

Fixpoint resolved_values (v : value A) outs : list (value A) :=
  match outs with
  | [] => []
  | out :: rest => v :: out.2 ++ resolved_values v rest
  end.

End notions.

(** ** Notions for the second pass *)

(** No character of [s] is a colon. *)
Fixpoint no_colon (s : string) : bool :=
  match s with
  | String c s' => negb (c =? ":")%char && no_colon s'
  | EmptyString => true
  end.

(** A text cut into unmatched characters. *)
Fixpoint lits (s : string) : list piece :=
  match s with
  | String c s' => Lit c :: lits s'
  | EmptyString => []
  end.

Section second_pass.
Context {A : Type}.
Implicit Types (params : object A) (pieces : list piece) (key : string).

(** What a match turns into: it stays a match when its key is unbound, and
    becomes the unmatched characters of its replacement otherwise. *)
Definition residual_piece params (p : piece) : list piece :=
  match p with
  | Lit c => [Lit c]
  | Tok key =>
      match own params !! key with
      | Some _ => lits (replacement params key).1
      | None => [Tok key]
      end
  end.

Definition residual params pieces : list piece :=
  flat_map (residual_piece params) pieces.

(** [params] with one more (or one replaced) own property [key: v]; the
    prototype is kept. *)
Definition with_binding params key (v : value A) : object A :=
  Object (<[key:=v]> (own params)) (proto params).

End second_pass.

(** ** Bindings used in the examples *)

Definition post_bindings : object nat :=
  literal [("postIds", dense [Scalar 1; Scalar 2; Scalar 3]); ("live", Scalar 0)].

Definition post_bindings_text : object string :=
  literal [("postIds", dense [Scalar "a"; Scalar "b"; Scalar "c"]);
           ("live", Scalar "yes")].

(** [{ ids: [1, 2, 3] }] and [{ ids: [1, , 3] }] *)
Definition three_ids : object nat :=
  literal [("ids", dense [Scalar 1; Scalar 2; Scalar 3])].

Definition holed_ids : object nat :=
  literal [("ids", Array [Some (Scalar 1); None; Some (Scalar 3)])].

(** [{ postIds: [1, 2, 3], hasOwnProperty: 1 }] *)
Definition post_bindings_shadowed : object nat :=
  literal [("postIds", dense [Scalar 1; Scalar 2; Scalar 3]);
           ("hasOwnProperty", Scalar 1)].

(** [{ ids: [], hasOwnProperty: 1 }] *)
Definition empty_ids_shadowed : object nat :=
  literal [("ids", Array []); ("hasOwnProperty", Scalar 1)].

(** [{ userId: 1, hasOwnProperty: 0 }] *)
Definition user_bindings_shadowed : object nat :=
  literal [("userId", Scalar 1); ("hasOwnProperty", Scalar 0)].

(** [{ hasOwnProperty: 1 }] *)
Definition only_shadow : object nat := literal [("hasOwnProperty", Scalar 1)].

(** [Object.assign(Object.create(null), { x: 1 })] and the same with
    [{ id: 5 }]: bindings without prototype. *)
Definition x_bound_bare : object nat := Object {[ "x" := Scalar 1 ]} NullPrototype.

Definition id_bindings_bare : object nat :=
  Object {[ "id" := Scalar 5 ]} NullPrototype.

Definition empty_ids : object nat := literal [("ids", Array [])].

Definition x_bound : object nat := literal [("x", Scalar 1)].

Definition user_bindings : object nat := literal [("userId", Scalar 1)].

Definition id_bindings : object nat := literal [("id", Scalar 5)].


(** [{ a: undefined, b: 2 }] *)
Definition undefined_bound : object nat :=
  literal [("a", Undefined); ("b", Scalar 2)].

(** [{ id: 5, hasOwnProperty: 1 }] *)
Definition shadowing_bindings : object nat :=
  literal [("id", Scalar 5); ("hasOwnProperty", Scalar 1)].

(** * Facts *)

(** ** The documented examples

    In the first one the scalars are written as their source text. *)

Example readme_usage :
  SqlPilot "SELECT * FROM users WHERE id = :userId AND status = :status"
           (literal [("userId", Scalar "1"); ("status", Scalar "'active'")])
  = Normal ("SELECT * FROM users WHERE id = ? AND status = ?",
            [Scalar "1"; Scalar "'active'"]).
Proof. vm_compute. reflexivity. Qed.

Example readme_arrays :
  SqlPilot "SELECT * FROM posts WHERE id IN :postIds"
           (literal [("postIds", dense [Scalar 1; Scalar 2; Scalar 3])])
  = Normal ("SELECT * FROM posts WHERE id IN (?, ?, ?)",
            [Scalar 1; Scalar 2; Scalar 3]).
Proof. vm_compute. reflexivity. Qed.

Example missing_key :
  SqlPilot "a = :x AND b = :y" (literal [("x", Scalar 1)])
  = Normal ("a = ? AND b = :y", [Scalar 1]).
Proof. vm_compute. reflexivity. Qed.

Example repeated_userId :
  SqlPilot "(:userId, :p1), (:userId, :p2), (:userId, :p3)"
           (literal [("userId", Scalar 1)])
  = Normal ("(?, :p1), (?, :p2), (?, :p3)", [Scalar 1; Scalar 1; Scalar 1]).
Proof. vm_compute. reflexivity. Qed.

(** Bindings without prototype, such as
    [Object.assign(Object.create(null), { id: 5 })], have no
    [hasOwnProperty] to call. *)
Example null_prototype_throws :
  SqlPilot "SELECT * FROM t WHERE id = :id"
           (Object {[ "id" := Scalar 5 ]} NullPrototype)
  = Throw TypeError.
Proof. vm_compute. reflexivity. Qed.

(** ** Words and matches *)

Lemma app_assoc_string (s1 s2 s3 : string) : (s1 +:+ s2) +:+ s3 = s1 +:+ s2 +:+ s3.
Proof. induction s1 as [|c s1 IH]; simpl; [done|]. by rewrite IH. Qed.

Lemma app_empty_r (s : string) : s +:+ "" = s.
Proof. induction s as [|c s IH]; simpl; [done|]. by rewrite IH. Qed.

Lemma drop_word_length s : String.length (drop_word s) ≤ String.length s.
Proof.
  induction s as [|c s IH]; simpl; [lia|].
  destruct (is_word_char c); simpl; lia.
Qed.

Lemma take_drop_word s : take_word s +:+ drop_word s = s.
Proof.
  induction s as [|c s IH]; simpl; [done|].
  destruct (is_word_char c); simpl; [by rewrite IH | done].
Qed.

Lemma take_word_all_word s : all_word_chars (take_word s) = true.
Proof.
  induction s as [|c s IH]; simpl; [done|].
  destruct (is_word_char c) eqn:Hc; simpl; [by rewrite Hc | done].
Qed.

Lemma drop_word_starts s : starts_with_word_char (drop_word s) = false.
Proof.
  induction s as [|c s IH]; simpl; [done|].
  destruct (is_word_char c) eqn:Hc; simpl; done.
Qed.

Lemma take_word_app key post :
  all_word_chars key = true → starts_with_word_char post = false →
  take_word (key +:+ post) = key.
Proof.
  intros Hkey Hpost. induction key as [|c key IH]; simpl in *.
  - destruct post as [|d post]; simpl in *; [done|]. by rewrite Hpost.
  - apply andb_prop in Hkey as [-> Hkey]. by rewrite IH.
Qed.

Lemma drop_word_app key post :
  all_word_chars key = true → starts_with_word_char post = false →
  drop_word (key +:+ post) = post.
Proof.
  intros Hkey Hpost. induction key as [|c key IH]; simpl in *.
  - destruct post as [|d post]; simpl in *; [done|]. by rewrite Hpost.
  - apply andb_prop in Hkey as [-> Hkey]. by rewrite IH.
Qed.

(** A colon ends a word: what precedes it is cut the same way with or
    without what follows. *)
Lemma take_word_colon s rest : take_word (s +:+ String ":" rest) = take_word s.
Proof.
  induction s as [|c s IH]; simpl; [done|].
  destruct (is_word_char c); [by rewrite IH | done].
Qed.

Lemma drop_word_colon s rest :
  drop_word (s +:+ String ":" rest) = drop_word s +:+ String ":" rest.
Proof.
  induction s as [|c s IH]; simpl; [done|].
  destruct (is_word_char c); [by rewrite IH | done].
Qed.

Lemma starts_with_word_char_app s1 s2 :
  starts_with_word_char s1 = false → starts_with_word_char s2 = false →
  starts_with_word_char (s1 +:+ s2) = false.
Proof. by destruct s1. Qed.

Lemma occurrences_starts key segments :
  starts_with_word_char (occurrences key segments) = false.
Proof. by destruct segments. Qed.

(** The defining equation of [scan], in one piece. *)
Lemma scan_cons c s :
  scan (String c s) =
    if (c =? ":")%char && negb (String.eqb (take_word s) "")
    then Tok (take_word s) :: scan (drop_word s)
    else Lit c :: scan s.
Proof.
  simp scan. destruct (c =? ":")%char; simpl; [|by destruct (take_word s)].
  by destruct (take_word s).
Qed.

Lemma scan_nil : scan "" = [].
Proof. by simp scan. Qed.

(** Induction on a template along the recursion of [scan]. *)
Lemma scan_ind (P : string → Prop) :
  P "" →
  (∀ c s, P s → P (drop_word s) → P (String c s)) →
  ∀ s, P s.
Proof.
  intros Hnil Hcons s.
  assert (∀ n s, String.length s < n → P s) as H;
    [|apply (H (S (String.length s))); lia].
  clear s. induction n as [|n IH]; intros s Hlen; [lia|].
  destruct s as [|c s]; [done|]. simpl in Hlen.
  pose proof (drop_word_length s). apply Hcons; apply IH; lia.
Qed.

(** Cutting loses nothing: the pieces spell the template. *)
Lemma text_of_scan s : text_of (scan s) = s.
Proof.
  induction s as [|c s IH1 IH2] using scan_ind; [by rewrite scan_nil|].
  rewrite scan_cons.
  destruct ((c =? ":")%char && negb (String.eqb (take_word s) "")) eqn:Hm; simpl.
  - apply andb_prop in Hm as [Hc _]. apply Ascii.eqb_eq in Hc as ->.
    by rewrite IH2, take_drop_word.
  - by rewrite IH1.
Qed.

(** Every captured key is a non-empty word. *)
Lemma keys_of_scan s :
  Forall (λ key, all_word_chars key = true ∧ key ≠ "") (keys_of (scan s)).
Proof.
  induction s as [|c s IH1 IH2] using scan_ind; [by rewrite scan_nil|].
  rewrite scan_cons.
  destruct ((c =? ":")%char && negb (String.eqb (take_word s) "")) eqn:Hm; simpl;
    [|done].
  apply andb_prop in Hm as [_ Hne]. constructor; [|done].
  split; [apply take_word_all_word|].
  intros Heq. rewrite Heq in Hne. done.
Qed.

(** A placeholder token is a match, and the template is cut around it. *)
Lemma scan_token sql pre key post :
  token_at sql pre key post →
  scan sql = scan pre ++ Tok key :: scan post.
Proof.
  intros [-> Hword Hne Hmax].
  induction pre as [|c s IH1 IH2] using scan_ind.
  - rewrite scan_nil. simpl. rewrite scan_cons. simpl.
    rewrite take_word_app, drop_word_app by done.
    destruct key; [done|]. done.
  - change (String c s +:+ ":" +:+ key +:+ post)
      with (String c (s +:+ String ":" (key +:+ post))).
    rewrite !scan_cons, take_word_colon, drop_word_colon.
    destruct ((c =? ":")%char && negb (String.eqb (take_word s) "")); simpl.
    + f_equal. apply IH2.
    + f_equal. apply IH1.
Qed.

Lemma keys_of_app pieces1 pieces2 :
  keys_of (pieces1 ++ pieces2) = keys_of pieces1 ++ keys_of pieces2.
Proof.
  induction pieces1 as [|[c|key] rest IH]; simpl; [done..|]. by rewrite IH.
Qed.

Lemma token_at_cons c sql pre key post :
  token_at sql pre key post → token_at (String c sql) (String c pre) key post.
Proof. intros [-> Hword Hne Hmax]. by split. Qed.

(** X9. The keys the pattern captures are the keys of the placeholder
    tokens: a key is captured exactly when the template reads some text, a
    colon, the key (a non-empty run of [[a-zA-Z0-9_]]) and then no further
    word character; a key is never cut short, and a colon that no word
    character follows is no placeholder. *)
Lemma token_at_scan sql key :
  (∃ pre post, token_at sql pre key post) ↔ key ∈ keys_of (scan sql).
Proof.
  split.
  - intros (pre & post & Htoken). rewrite (scan_token _ _ _ _ Htoken).
    rewrite keys_of_app. simpl. apply elem_of_app. right. by left.
  - revert key. induction sql as [|c s IH1 IH2] using scan_ind; intros key.
    { rewrite scan_nil. simpl. by intros ?%elem_of_nil. }
    rewrite scan_cons.
    destruct ((c =? ":")%char && negb (String.eqb (take_word s) "")) eqn:Hm;
      simpl.
    + apply andb_prop in Hm as [Hc Hne]. apply Ascii.eqb_eq in Hc as ->.
      intros [->|Hin]%elem_of_cons.
      * exists "", (drop_word s). split.
        -- simpl. by rewrite take_drop_word.
        -- apply take_word_all_word.
        -- intros Heq. by rewrite Heq in Hne.
        -- apply drop_word_starts.
      * destruct (IH2 key Hin) as (pre & post & [Hs Hword Hkey Hmax]).
        exists (String ":" (take_word s +:+ pre)), post. split; [|done..].
        change (String ":" (take_word s +:+ pre) +:+ ":" +:+ key +:+ post)
          with (String ":" ((take_word s +:+ pre) +:+ ":" +:+ key +:+ post)).
        by rewrite app_assoc_string, <- Hs, take_drop_word.
    + intros Hin. destruct (IH1 key Hin) as (pre & post & Htoken).
      exists (String c pre), post. by apply token_at_cons.
Qed.

Lemma scan_occurrences key first segments :
  all_word_chars key = true → key ≠ "" →
  Forall (λ segment, starts_with_word_char segment = false) segments →
  scan (first +:+ occurrences key segments)
  = scan first ++ flat_map (λ segment, Tok key :: scan segment) segments.
Proof.
  intros Hword Hne Hsegments. revert first.
  induction Hsegments as [|segment rest Hsegment _ IH]; intros first; simpl.
  - by rewrite app_empty_r, app_nil_r.
  - rewrite (scan_token _ first key (segment +:+ occurrences key rest)).
    + by rewrite IH.
    + split; [done..|].
      by apply starts_with_word_char_app, occurrences_starts.
Qed.

(** ** Templates without placeholder *)

Lemma has_placeholder_cons c sql :
  has_placeholder sql → has_placeholder (String c sql).
Proof.
  intros (pre & mid & post & -> & Hmid). by exists (String c pre), mid, post.
Qed.

Lemma find_placeholder_spec sql :
  find_placeholder sql = true ↔ has_placeholder sql.
Proof.
  induction sql as [|c s IH]; simpl.
  - split; [done|]. intros ([|] & mid & post & Heq & key & -> & _); done.
  - rewrite orb_true_iff, andb_true_iff, IH. split.
    + intros [[Hc Hs]|Hs]; [|by apply has_placeholder_cons].
      apply Ascii.eqb_eq in Hc as ->. destruct s as [|d s]; [done|].
      exists "", (":" +:+ String d ""), s. split; [done|].
      exists (String d ""). simpl in *. by rewrite Hs.
    + intros ([|c' pre] & mid & post & Heq & key & -> & Hne & Hword).
      * destruct key as [|d key]; [done|]. simpl in *.
        injection Heq as -> ->. left. simpl.
        by apply andb_prop in Hword as [-> _].
      * simpl in Heq. injection Heq as -> ->. right.
        exists pre, (":" +:+ key), post. split; [done|]. by exists key.
Qed.

Lemma no_placeholder_found sql :
  find_placeholder sql = false → ¬ has_placeholder sql.
Proof. rewrite <- find_placeholder_spec. by intros ->. Qed.

Lemma scan_no_placeholder sql :
  ¬ has_placeholder sql → keys_of (scan sql) = [].
Proof.
  rewrite <- find_placeholder_spec, not_true_iff_false.
  induction sql as [|c s IH]; [by rewrite scan_nil|]. simpl.
  intros [Hhere Hs]%orb_false_elim. rewrite scan_cons.
  destruct (c =? ":")%char; simpl in *; [|by apply IH].
  destruct (take_word s) as [|k key] eqn:Hword; simpl; [by apply IH|].
  destruct s as [|d s]; [done|]. simpl in *. rewrite Hhere in Hword. done.
Qed.

(** ** Counting [?] marks *)

Lemma question_marks_app s1 s2 :
  question_marks (s1 +:+ s2) = question_marks s1 + question_marks s2.
Proof. induction s1 as [|c s1 IH]; simpl; [done|]. rewrite IH. lia. Qed.

Lemma question_marks_word key : all_word_chars key = true → question_marks key = 0.
Proof.
  induction key as [|c key IH]; simpl; [done|].
  intros [Hc Hkey]%andb_prop. rewrite IH by done.
  destruct (c =? "?")%char eqn:Heq; [|done].
  apply Ascii.eqb_eq in Heq as ->. done.
Qed.

Lemma question_marks_concat (texts : list string) :
  question_marks (String.concat ", " texts)
  = list_sum (question_marks <$> texts).
Proof.
  induction texts as [|text texts IH]; [done|].
  destruct texts as [|text' texts]; [simpl; lia|].
  change (String.concat ", " (text :: text' :: texts))
    with (text +:+ ", " +:+ String.concat ", " (text' :: texts)).
  rewrite !question_marks_app, IH. simpl. lia.
Qed.

(** A group counts one mark per element. *)
Lemma question_marks_group {A} (items : list (option (value A))) :
  question_marks (String.concat ", " (mark <$> items)) = length (elements items).
Proof.
  rewrite question_marks_concat. unfold elements.
  induction items as [|[item|] items IH]; simpl; [done| |exact IH].
  f_equal. exact IH.
Qed.

(** Without hole, the marks of a group are [?] as many times as the array is
    long, and its elements are all its slots. *)
Lemma mark_dense {A} (elems : list (value A)) :
  mark <$> (Some <$> elems) = replicate (length elems) "?".
Proof. induction elems as [|elem elems IH]; csimpl; [done|]. by rewrite IH. Qed.

Lemma elements_dense {A} (elems : list (value A)) :
  elements (Some <$> elems) = elems.
Proof.
  unfold elements. induction elems as [|elem elems IH]; csimpl; [done|].
  by rewrite IH.
Qed.

(** ** The callback and the replacement loop *)

Section replace_facts.
Context {A : Type}.
Implicit Types (params : object A) (newParams : list (value A)).
Implicit Types (pieces : list piece) (key sql : string) (v : value A).

Lemma inherits_hasOwnProperty_alt params :
  inherits_hasOwnProperty params ↔
  proto params = ObjectPrototype ∧ own params !! "hasOwnProperty" = None.
Proof.
  unfold inherits_hasOwnProperty, get_hasOwnProperty.
  destruct (own params !! "hasOwnProperty"), (proto params);
    intuition congruence.
Qed.

Lemma forEach_push_app (items : list (option (value A))) newParams :
  forEach_push items newParams = newParams ++ elements items.
Proof.
  unfold forEach_push, elements. revert newParams.
  induction items as [|[item|] items IH]; intros newParams; simpl.
  - by rewrite app_nil_r.
  - rewrite IH. unfold push. by rewrite <- app_assoc.
  - apply IH.
Qed.

Lemma placeholders_marks (items : list (option (value A))) :
  placeholders items = String.concat ", " (mark <$> items).
Proof.
  unfold placeholders, join, map_question. f_equal.
  induction items as [|[item|] items IH]; csimpl; [done| |]; by rewrite IH.
Qed.

Lemma replacer_native params key newParams :
  inherits_hasOwnProperty params →
  replacer params (":" +:+ key) key newParams
  = Normal ((replacement params key).1, newParams ++ (replacement params key).2).
Proof.
  intros Hnative. unfold replacer, hasOwnProperty, replacement, get.
  rewrite Hnative. simpl.
  destruct (own params !! key) as [value|] eqn:Hkey; simpl.
  - destruct value; simpl; try done.
    by rewrite forEach_push_app, placeholders_marks.
  - by rewrite app_nil_r.
Qed.

Lemma replacer_not_callable params matched key newParams :
  ¬ inherits_hasOwnProperty params →
  replacer params matched key newParams = Throw TypeError.
Proof.
  unfold inherits_hasOwnProperty, replacer, hasOwnProperty.
  by destruct (get_hasOwnProperty params).
Qed.

Lemma replace_native params pieces newParams :
  inherits_hasOwnProperty params →
  replace params pieces newParams
  = Normal (rendered params pieces, newParams ++ collected params pieces).
Proof.
  intros Hnative. revert newParams.
  induction pieces as [|[c|key] rest IH]; intros newParams; simpl.
  - by rewrite app_nil_r.
  - by rewrite IH.
  - pose proof (replacer_native params key newParams Hnative) as Hcall.
    simpl in Hcall. rewrite Hcall. simpl. rewrite IH. simpl.
    by rewrite <- app_assoc.
Qed.

(** Without a callable test the first match throws; a template without
    match is copied. *)
Lemma replace_not_callable params pieces newParams :
  ¬ inherits_hasOwnProperty params →
  replace params pieces newParams
  = match keys_of pieces with
    | [] => Normal (text_of pieces, newParams)
    | _ :: _ => Throw TypeError
    end.
Proof.
  intros Hnot. induction pieces as [|[c|key] rest IH]; simpl.
  - done.
  - rewrite IH. by destruct (keys_of rest).
  - by rewrite replacer_not_callable.
Qed.

(** Without match, the template is copied and nothing is called. *)
Lemma replace_no_match params pieces newParams :
  keys_of pieces = [] →
  replace params pieces newParams = Normal (text_of pieces, newParams).
Proof.
  induction pieces as [|[c|key] rest IH]; simpl; [done| |done].
  intros Hrest. by rewrite IH.
Qed.

Lemma rendered_app params pieces1 pieces2 :
  rendered params (pieces1 ++ pieces2)
  = rendered params pieces1 +:+ rendered params pieces2.
Proof.
  induction pieces1 as [|[c|key] rest IH]; simpl; [done| |].
  - by rewrite IH.
  - by rewrite IH, app_assoc_string.
Qed.

Lemma collected_app params pieces1 pieces2 :
  collected params (pieces1 ++ pieces2)
  = collected params pieces1 ++ collected params pieces2.
Proof.
  induction pieces1 as [|[c|key] rest IH]; simpl; [done..|].
  by rewrite IH, app_assoc.
Qed.

Lemma SqlPilot_native sql params :
  inherits_hasOwnProperty params →
  SqlPilot sql params
  = Normal (rendered params (scan sql), collected params (scan sql)).
Proof. intros Hnative. unfold SqlPilot. by rewrite replace_native. Qed.

(** A call returns exactly when the test can be called or the template has
    no match. *)
Lemma SqlPilot_returns_iff sql params :
  (∃ result, SqlPilot sql params = Normal result) ↔
  inherits_hasOwnProperty params ∨ keys_of (scan sql) = [].
Proof.
  destruct (decide (inherits_hasOwnProperty params)) as [Hnative|Hnot].
  - rewrite SqlPilot_native by done. split; [by left | eauto].
  - unfold SqlPilot. rewrite replace_not_callable by done.
    destruct (keys_of (scan sql)).
    + split; [by right | eauto].
    + split; [by intros [? ?] | by intros [?|?]].
Qed.

(** The template is rewritten around each of its tokens: what precedes the
    token and what follows it are rewritten as they are on their own. *)
Lemma SqlPilot_around_token sql pre key post params :
  inherits_hasOwnProperty params →
  token_at sql pre key post →
  ∃ sqlL paramsL sqlR paramsR,
    SqlPilot pre params = Normal (sqlL, paramsL) ∧
    SqlPilot post params = Normal (sqlR, paramsR) ∧
    SqlPilot sql params
    = Normal (sqlL +:+ (replacement params key).1 +:+ sqlR,
              paramsL ++ (replacement params key).2 ++ paramsR).
Proof.
  intros Hnative Htoken.
  exists (rendered params (scan pre)), (collected params (scan pre)),
    (rendered params (scan post)), (collected params (scan post)).
  rewrite !SqlPilot_native by done.
  rewrite (scan_token _ _ _ _ Htoken), rendered_app, collected_app. done.
Qed.

Lemma collected_no_placeholder params sql :
  ¬ has_placeholder sql → collected params (scan sql) = [].
Proof.
  intros Hnone%scan_no_placeholder.
  induction (scan sql) as [|[c|key] rest IH]; simpl in *; [done| |done].
  by apply IH.
Qed.



(** One mark per bound value. *)
Lemma question_marks_replacement params key :
  all_word_chars key = true →
  question_marks (replacement params key).1 = length (replacement params key).2.
Proof.
  intros Hword. unfold replacement.
  destruct (own params !! key) as [[| |items]|]; simpl; try done.
  - rewrite question_marks_app, question_marks_group. simpl. lia.
  - by apply question_marks_word.
Qed.

Lemma question_marks_rendered params pieces :
  Forall (λ key, all_word_chars key = true ∧ key ≠ "") (keys_of pieces) →
  question_marks (rendered params pieces)
  = question_marks (text_of pieces) + length (collected params pieces).
Proof.
  induction pieces as [|[c|key] rest IH]; simpl; [done| |].
  - intros Hkeys. rewrite IH by done. lia.
  - intros [[Hword _] Hkeys]%Forall_cons.
    rewrite !question_marks_app, length_app, IH by done.
    rewrite question_marks_replacement, (question_marks_word key) by done. lia.
Qed.

(** Occurrences of a key bound to a scalar. *)
Lemma rendered_occurrences params key v segments :
  own params !! key = Some v → shape v = None →
  rendered params (flat_map (λ segment, Tok key :: scan segment) segments)
  = resolved_text
      ((λ segment, (rendered params (scan segment),
                    collected params (scan segment))) <$> segments).
Proof.
  intros Hkey Hscalar.
  induction segments as [|segment rest IH]; simpl; [done|].
  rewrite rendered_app, IH. unfold replacement. rewrite Hkey.
  by destruct v.
Qed.

Lemma collected_occurrences params key v segments :
  own params !! key = Some v → shape v = None →
  collected params (flat_map (λ segment, Tok key :: scan segment) segments)
  = resolved_values v
      ((λ segment, (rendered params (scan segment),
                    collected params (scan segment))) <$> segments).
Proof.
  intros Hkey Hscalar.
  induction segments as [|segment rest IH]; simpl; [done|].
  rewrite collected_app, IH. unfold replacement. rewrite Hkey.
  by destruct v.
Qed.

Lemma resolved_values_replicate v (outs : list (string * list (value A))) :
  Forall (λ o, o.2 = []) outs →
  resolved_values v outs = replicate (length outs) v.
Proof. induction 1 as [|o rest Ho _ IH]; simpl; [done|]. by rewrite Ho, IH. Qed.

End replace_facts.

(** ** Bindings of the same shape *)

Section shape_facts.
Context {A B : Type}.
Variables (params1 : object A) (params2 : object B).
Hypothesis same_shape :
  ∀ key, shape <$> own params1 !! key = shape <$> own params2 !! key.

(** Arrays with elements in the same slots get the same marks. *)
Lemma mark_shape (items1 : list (option (value A)))
    (items2 : list (option (value B))) :
  shape (Array items1) = shape (Array items2) →
  mark <$> items1 = mark <$> items2.
Proof.
  intros [= Hslots]. revert items2 Hslots.
  induction items1 as [|slot1 items1 IH]; intros [|slot2 items2] Hslots;
    csimpl in *; try done.
  injection Hslots as Hslot Hrest. rewrite (IH items2 Hrest).
  by destruct slot1, slot2.
Qed.

Lemma replacement_shape key :
  (replacement params1 key).1 = (replacement params2 key).1.
Proof using same_shape.
  specialize (same_shape key). unfold replacement.
  destruct (own params1 !! key) as [[| |items1]|],
    (own params2 !! key) as [[| |items2]|]; try done.
  simpl. injection same_shape as Hslots.
  by rewrite (mark_shape items1 items2) by (simpl; by rewrite Hslots).
Qed.

Lemma rendered_shape pieces :
  rendered params1 pieces = rendered params2 pieces.
Proof using same_shape.
  induction pieces as [|[c|key] rest IH]; simpl; [done| |].
  - by rewrite IH.
  - by rewrite IH, replacement_shape.
Qed.

End shape_facts.

(** * What a call returns

    Three statements of the specification hold of every call (C2 as
    amended, C6, C7).  The other statements about the output hold of the
    calls on which [params.hasOwnProperty] is the method inherited from
    [Object.prototype] ([inherits_hasOwnProperty]); they are stated with
    that premise (X10 to X15), and the calls they leave out are in the next
    part. *)

Section claims.
Context {A : Type}.
Implicit Types (params : object A) (newParams : list (value A)).
Implicit Types (sql pre key post newSql : string).

(** C2, amended. The [?] marks of the output are those of the template and
    one more for each parameter: whenever a call returns, the number of [?]
    in the output is the number of [?] in the template plus the length of
    the parameters. *)
Theorem question_marks_count sql params newSql newParams :
  SqlPilot sql params = Normal (newSql, newParams) →
  question_marks newSql = question_marks sql + length newParams.
Proof.
  destruct (decide (inherits_hasOwnProperty params)) as [Hnative|Hnot].
  - rewrite SqlPilot_native by done. intros [= <- <-].
    rewrite question_marks_rendered by apply keys_of_scan.
    by rewrite text_of_scan.
  - unfold SqlPilot. rewrite replace_not_callable by done.
    destruct (keys_of (scan sql)); [|done]. intros [= <- <-].
    rewrite text_of_scan. simpl. lia.
Qed.

(** C6. A template in which no substring matches [:[A-Za-z0-9_]+] is
    returned as it is, with no parameter, whatever the bindings. *)
Theorem no_placeholder_identity sql params :
  ¬ has_placeholder sql →
  SqlPilot sql params = Normal (sql, []).
Proof.
  intros Hnone. unfold SqlPilot.
  rewrite replace_no_match by by apply scan_no_placeholder.
  by rewrite text_of_scan.
Qed.


(** X10. Sequence expansion: when [params.hasOwnProperty] is the inherited
    method and [key] is bound to an array of [n] elements without hole, a
    token [:key] of the template is replaced, in place, by [(] followed by
    [n] marks [?] joined by [, ] followed by [)], and the [n] elements are
    appended to the parameters in their order: the output is the rewriting
    of what precedes the token, the group, and the rewriting of what
    follows; the parameters are those of what precedes, the elements, and
    those of what follows. *)
Theorem sequence_expansion sql pre key post params (elems : list (value A)) :
  inherits_hasOwnProperty params →
  token_at sql pre key post →
  own params !! key = Some (dense elems) →
  ∃ sqlL paramsL sqlR paramsR,
    SqlPilot pre params = Normal (sqlL, paramsL) ∧
    SqlPilot post params = Normal (sqlR, paramsR) ∧
    SqlPilot sql params
    = Normal (sqlL +:+ "(" +:+ String.concat ", " (replicate (length elems) "?")
                   +:+ ")" +:+ sqlR,
              paramsL ++ elems ++ paramsR).
Proof.
  intros Hnative Htoken Hkey.
  destruct (SqlPilot_around_token sql pre key post params Hnative Htoken)
    as (sqlL & paramsL & sqlR & paramsR & HL & HR & Hsql).
  exists sqlL, paramsL, sqlR, paramsR. split; [done|]. split; [done|].
  rewrite Hsql. unfold replacement, dense in *. rewrite Hkey. simpl.
  by rewrite mark_dense, elements_dense, !app_assoc_string.
Qed.

(** X11. Arrays with holes: when [params.hasOwnProperty] is the inherited
    method and [key] is bound to an array, the group that replaces the token
    has one slot per index, joined by [, ]: a [?] where the array holds an
    element and nothing where it has a hole; only the elements are appended
    to the parameters, in index order. *)
Theorem sequence_with_holes sql pre key post params
    (items : list (option (value A))) :
  inherits_hasOwnProperty params →
  token_at sql pre key post →
  own params !! key = Some (Array items) →
  ∃ sqlL paramsL sqlR paramsR,
    SqlPilot pre params = Normal (sqlL, paramsL) ∧
    SqlPilot post params = Normal (sqlR, paramsR) ∧
    SqlPilot sql params
    = Normal (sqlL +:+ "(" +:+ String.concat ", " (mark <$> items) +:+ ")"
                   +:+ sqlR,
              paramsL ++ elements items ++ paramsR).
Proof.
  intros Hnative Htoken Hkey.
  destruct (SqlPilot_around_token sql pre key post params Hnative Htoken)
    as (sqlL & paramsL & sqlR & paramsR & HL & HR & Hsql).
  exists sqlL, paramsL, sqlR, paramsR. split; [done|]. split; [done|].
  rewrite Hsql. unfold replacement. rewrite Hkey. simpl.
  by rewrite !app_assoc_string.
Qed.

(** X12. Unknown keys pass through: when [params.hasOwnProperty] is the
    inherited method, a token [:key] whose key is not an own property of the
    bindings (a key found on the prototype only, such as [toString],
    included) is copied to the output character for character and adds
    nothing to the parameters. *)
Theorem unknown_key_passes_through sql pre key post params :
  inherits_hasOwnProperty params →
  token_at sql pre key post →
  own params !! key = None →
  ∃ sqlL paramsL sqlR paramsR,
    SqlPilot pre params = Normal (sqlL, paramsL) ∧
    SqlPilot post params = Normal (sqlR, paramsR) ∧
    SqlPilot sql params
    = Normal (sqlL +:+ ":" +:+ key +:+ sqlR, paramsL ++ paramsR).
Proof.
  intros Hnative Htoken Hkey.
  destruct (SqlPilot_around_token sql pre key post params Hnative Htoken)
    as (sqlL & paramsL & sqlR & paramsR & HL & HR & Hsql).
  exists sqlL, paramsL, sqlR, paramsR. split; [done|]. split; [done|].
  rewrite Hsql. unfold replacement. rewrite Hkey. done.
Qed.

(** X13. Empty sequence: when [params.hasOwnProperty] is the inherited
    method, a token whose key is bound to the empty array is replaced by the
    two characters [()] and adds no parameter. *)
Theorem empty_sequence_group sql pre key post params :
  inherits_hasOwnProperty params →
  token_at sql pre key post →
  own params !! key = Some (Array []) →
  ∃ sqlL paramsL sqlR paramsR,
    SqlPilot pre params = Normal (sqlL, paramsL) ∧
    SqlPilot post params = Normal (sqlR, paramsR) ∧
    SqlPilot sql params = Normal (sqlL +:+ "()" +:+ sqlR, paramsL ++ paramsR).
Proof.
  intros Hnative Htoken Hkey.
  destruct (SqlPilot_around_token sql pre key post params Hnative Htoken)
    as (sqlL & paramsL & sqlR & paramsR & HL & HR & Hsql).
  exists sqlL, paramsL, sqlR, paramsR. split; [done|]. split; [done|].
  rewrite Hsql. unfold replacement. rewrite Hkey. done.
Qed.

(** X14. Repeated occurrences of a key bound to a value that is not an array
    are resolved one by one, when [params.hasOwnProperty] is the inherited
    method: in a template that reads [first] and then [k] times the token
    [:key] followed by a segment, each occurrence is replaced by one [?] and
    binds the value once, in place between the rewritings of the segments
    around it; when no other placeholder occurs, the parameters are the
    value [k] times. *)
Theorem repeated_scalar_key params key (v : value A) first (segments : list string) :
  inherits_hasOwnProperty params →
  all_word_chars key = true → key ≠ "" →
  Forall (λ segment, starts_with_word_char segment = false) segments →
  own params !! key = Some v → shape v = None →
  ∃ out outs,
    SqlPilot first params = Normal out ∧
    Forall2 (λ segment o, SqlPilot segment params = Normal o) segments outs ∧
    SqlPilot (first +:+ occurrences key segments) params
    = Normal (out.1 +:+ resolved_text outs, out.2 ++ resolved_values v outs) ∧
    (¬ has_placeholder first →
     Forall (λ segment, ¬ has_placeholder segment) segments →
     out.2 ++ resolved_values v outs = replicate (length segments) v).
Proof.
  intros Hnative Hword Hne Hsegments Hkey Hscalar.
  exists (rendered params (scan first), collected params (scan first)).
  exists ((λ segment, (rendered params (scan segment),
                       collected params (scan segment))) <$> segments).
  split; [by apply SqlPilot_native|]. split; [|split].
  - apply Forall2_fmap_r, Forall_Forall2_diag, Forall_forall.
    intros segment _. by apply SqlPilot_native.
  - rewrite SqlPilot_native, scan_occurrences by done.
    rewrite rendered_app, collected_app.
    by rewrite (rendered_occurrences _ _ v), (collected_occurrences _ _ v).
  - intros Hfirst Hliteral. simpl.
    rewrite (collected_no_placeholder params first) by done. simpl.
    rewrite resolved_values_replicate; [by rewrite length_fmap|].
    apply Forall_fmap. eapply Forall_impl; [exact Hliteral|].
    intros segment Hsegment. by apply collected_no_placeholder.
Qed.

End claims.

(** X15. The output text does not depend on the bound values: two bindings
    on which [params.hasOwnProperty] is the inherited method, with the same
    keys, where a key is bound to an array in one exactly when it is in the
    other, and then to one with elements in the same slots (the same length
    and the same holes), both return, and return the same output text for
    the same template. *)
Theorem output_text_independent_of_values {A B} sql
    (params1 : object A) (params2 : object B) :
  inherits_hasOwnProperty params1 →
  inherits_hasOwnProperty params2 →
  shape <$> own params1 = shape <$> own params2 →
  ∃ newSql newParams1 newParams2,
    SqlPilot sql params1 = Normal (newSql, newParams1) ∧
    SqlPilot sql params2 = Normal (newSql, newParams2).
Proof.
  intros Hnative1 Hnative2 Hshapes.
  assert (∀ key, shape <$> own params1 !! key = shape <$> own params2 !! key)
    as Hshape.
  { intros key. by rewrite <- !lookup_fmap, Hshapes. }
  exists (rendered params1 (scan sql)), (collected params1 (scan sql)),
    (collected params2 (scan sql)).
  rewrite !SqlPilot_native by done. split; [done|].
  by rewrite (rendered_shape params1 params2 Hshape).
Qed.

(** * Where the code misses the specification *)

(** C2, as stated, fails on a template that already holds a [?]: the
    question mark of the string literal is copied to the output, which then
    counts two marks for one parameter. *)
Lemma question_marks_counterexample :
  ∃ newSql newParams,
    SqlPilot "SELECT * FROM t WHERE q = 'why?' AND id = :id" id_bindings
    = Normal (newSql, newParams) ∧
    question_marks newSql ≠ length newParams.
Proof.
  exists "SELECT * FROM t WHERE q = 'why?' AND id = ?", [Scalar 5].
  split; [vm_compute; reflexivity | vm_compute; discriminate].
Qed.

(** C3. The call throws when the bindings have a key named
    [hasOwnProperty]: [params.hasOwnProperty] is then the bound value, which
    cannot be called. *)
Theorem shadowed_hasOwnProperty_throws :
  SqlPilot "SELECT * FROM t WHERE id = :id" shadowing_bindings = Throw TypeError.
Proof. vm_compute. reflexivity. Qed.

(** C1. Sequence expansion fails on bindings with a key named
    [hasOwnProperty]: the call throws at the token instead of putting a
    group in its place (the defect of C3).  It also fails on an array with a
    hole: of a sequence of length 3 the group has two marks and an empty
    slot, and two values are appended. *)
Theorem sequence_expansion_fails :
  SqlPilot "SELECT * FROM posts WHERE id IN :postIds" post_bindings_shadowed
  = Throw TypeError ∧
  SqlPilot "SELECT * FROM posts WHERE id IN :ids" holed_ids
  = Normal ("SELECT * FROM posts WHERE id IN (?, , ?)", [Scalar 1; Scalar 3]).
Proof. split; vm_compute; reflexivity. Qed.

(** C4. The pass-through of an unknown key fails on bindings without
    prototype: the call throws at the first token, [:x], and returns no
    output for [:y] to appear in (the defect of C3). *)
Theorem unknown_key_fails :
  own x_bound_bare !! "y" = None ∧
  SqlPilot "a = :x AND b = :y" x_bound_bare = Throw TypeError ∧
  SqlPilot "b = :y" x_bound_bare = Throw TypeError.
Proof. repeat split; vm_compute; reflexivity. Qed.

(** C5. The empty group fails on bindings with a key named
    [hasOwnProperty]: the call throws at the token bound to the empty array
    (the defect of C3). *)
Theorem empty_sequence_fails :
  own empty_ids_shadowed !! "ids" = Some (Array []) ∧
  SqlPilot "DELETE FROM t WHERE id IN :ids;" empty_ids_shadowed = Throw TypeError.
Proof. split; vm_compute; reflexivity. Qed.

(** C8. Repeated occurrences of a scalar key fail on bindings with a key
    named [hasOwnProperty]: the call throws at the first [:userId] (the
    defect of C3). *)
Theorem repeated_scalar_key_fails :
  own user_bindings_shadowed !! "userId" = Some (Scalar 1) ∧
  SqlPilot "(:userId, 101), (:userId, 102), (:userId, 103)"
           user_bindings_shadowed
  = Throw TypeError.
Proof. split; vm_compute; reflexivity. Qed.

(** C9. The independence of the output text from the bound values fails
    between bindings with the same keys and values of the same kind: one
    with [Object.prototype] returns and the same without prototype throws
    (the defect of C3); and two arrays of the same length, one of them with
    a hole, give different texts. *)
Theorem values_independence_fails :
  (shape <$> own id_bindings = shape <$> own id_bindings_bare ∧
   SqlPilot "SELECT * FROM t WHERE id = :id" id_bindings
   = Normal ("SELECT * FROM t WHERE id = ?", [Scalar 5]) ∧
   SqlPilot "SELECT * FROM t WHERE id = :id" id_bindings_bare
   = Throw TypeError) ∧
  (dom (own three_ids) = dom (own holed_ids) ∧
   SqlPilot "id IN :ids" three_ids
   = Normal ("id IN (?, ?, ?)", [Scalar 1; Scalar 2; Scalar 3]) ∧
   SqlPilot "id IN :ids" holed_ids = Normal ("id IN (?, , ?)", [Scalar 1; Scalar 3])).
Proof. repeat split; vm_compute; reflexivity. Qed.

(** C10. The treatment of an inherited key as absent fails on bindings with
    a key named [hasOwnProperty]: [toString] is no own property of them,
    and the call throws at [:toString] instead of copying it (the defect of
    C3). *)
Theorem inherited_key_fails :
  own only_shadow !! "toString" = None ∧
  SqlPilot "SELECT :toString" only_shadow = Throw TypeError.
Proof. split; vm_compute; reflexivity. Qed.

(** * Instances

    Each statement above that has a premise, applied to a concrete call. *)

Lemma question_marks_count_witness :
  SqlPilot "SELECT * FROM t WHERE q = 'why?' AND id = :id" id_bindings
  = Normal ("SELECT * FROM t WHERE q = 'why?' AND id = ?", [Scalar 5]) ∧
  question_marks "SELECT * FROM t WHERE q = 'why?' AND id = ?"
  = question_marks "SELECT * FROM t WHERE q = 'why?' AND id = :id"
    + length [Scalar (A:=nat) 5].
Proof.
  assert (SqlPilot "SELECT * FROM t WHERE q = 'why?' AND id = :id" id_bindings
          = Normal ("SELECT * FROM t WHERE q = 'why?' AND id = ?", [Scalar 5]))
    as Hcall by (vm_compute; reflexivity).
  split; [exact Hcall|].
  exact (question_marks_count _ _ _ _ Hcall).
Defined.

Lemma no_placeholder_identity_witness :
  ¬ has_placeholder "SELECT a FROM t WHERE b = '?' -- note: none" ∧
  SqlPilot "SELECT a FROM t WHERE b = '?' -- note: none" shadowing_bindings
  = Normal ("SELECT a FROM t WHERE b = '?' -- note: none", []).
Proof.
  assert (¬ has_placeholder "SELECT a FROM t WHERE b = '?' -- note: none")
    as Hnone by (apply no_placeholder_found; vm_compute; reflexivity).
  split; [exact Hnone|].
  exact (no_placeholder_identity _ shadowing_bindings Hnone).
Defined.


Lemma sequence_expansion_witness :
  inherits_hasOwnProperty post_bindings ∧
  token_at "SELECT * FROM posts WHERE live = :live AND id IN :postIds OR :x"
           "SELECT * FROM posts WHERE live = :live AND id IN " "postIds" " OR :x" ∧
  own post_bindings !! "postIds" = Some (dense [Scalar 1; Scalar 2; Scalar 3]) ∧
  ∃ sqlL paramsL sqlR paramsR,
    SqlPilot "SELECT * FROM posts WHERE live = :live AND id IN " post_bindings
    = Normal (sqlL, paramsL) ∧
    SqlPilot " OR :x" post_bindings = Normal (sqlR, paramsR) ∧
    SqlPilot "SELECT * FROM posts WHERE live = :live AND id IN :postIds OR :x"
             post_bindings
    = Normal (sqlL +:+ "(" +:+ String.concat ", " (replicate 3 "?") +:+ ")"
                   +:+ sqlR,
              paramsL ++ [Scalar 1; Scalar 2; Scalar 3] ++ paramsR).
Proof.
  assert (inherits_hasOwnProperty post_bindings) as Hnative
    by (vm_compute; reflexivity).
  assert (token_at
            "SELECT * FROM posts WHERE live = :live AND id IN :postIds OR :x"
            "SELECT * FROM posts WHERE live = :live AND id IN " "postIds"
            " OR :x") as Htoken
    by (split; [reflexivity | reflexivity | discriminate | reflexivity]).
  assert (own post_bindings !! "postIds"
          = Some (dense [Scalar 1; Scalar 2; Scalar 3])) as Hkey
    by (vm_compute; reflexivity).
  split; [exact Hnative|]. split; [exact Htoken|]. split; [exact Hkey|].
  exact (sequence_expansion _ _ _ _ _ _ Hnative Htoken Hkey).
Defined.

Lemma sequence_with_holes_witness :
  inherits_hasOwnProperty holed_ids ∧
  token_at "id IN :ids AND x" "id IN " "ids" " AND x" ∧
  own holed_ids !! "ids" = Some (Array [Some (Scalar 1); None; Some (Scalar 3)]) ∧
  ∃ sqlL paramsL sqlR paramsR,
    SqlPilot "id IN " holed_ids = Normal (sqlL, paramsL) ∧
    SqlPilot " AND x" holed_ids = Normal (sqlR, paramsR) ∧
    SqlPilot "id IN :ids AND x" holed_ids
    = Normal (sqlL +:+ "(" +:+ String.concat ", " ["?"; ""; "?"] +:+ ")" +:+ sqlR,
              paramsL ++ [Scalar 1; Scalar 3] ++ paramsR).
Proof.
  assert (inherits_hasOwnProperty holed_ids) as Hnative
    by (vm_compute; reflexivity).
  assert (token_at "id IN :ids AND x" "id IN " "ids" " AND x") as Htoken
    by (split; [reflexivity | reflexivity | discriminate | reflexivity]).
  assert (own holed_ids !! "ids"
          = Some (Array [Some (Scalar 1); None; Some (Scalar 3)])) as Hkey
    by (vm_compute; reflexivity).
  split; [exact Hnative|]. split; [exact Htoken|]. split; [exact Hkey|].
  exact (sequence_with_holes _ _ _ _ _ _ Hnative Htoken Hkey).
Defined.

Lemma unknown_key_passes_through_witness :
  inherits_hasOwnProperty x_bound ∧
  token_at "a = :x AND b = :y" "a = :x AND b = " "y" "" ∧
  own x_bound !! "y" = None ∧
  ∃ sqlL paramsL sqlR paramsR,
    SqlPilot "a = :x AND b = " x_bound = Normal (sqlL, paramsL) ∧
    SqlPilot "" x_bound = Normal (sqlR, paramsR) ∧
    SqlPilot "a = :x AND b = :y" x_bound
    = Normal (sqlL +:+ ":" +:+ "y" +:+ sqlR, paramsL ++ paramsR).
Proof.
  assert (inherits_hasOwnProperty x_bound) as Hnative
    by (vm_compute; reflexivity).
  assert (token_at "a = :x AND b = :y" "a = :x AND b = " "y" "") as Htoken
    by (split; [reflexivity | reflexivity | discriminate | reflexivity]).
  assert (own x_bound !! "y" = None) as Hkey by (vm_compute; reflexivity).
  split; [exact Hnative|]. split; [exact Htoken|]. split; [exact Hkey|].
  exact (unknown_key_passes_through _ _ _ _ _ Hnative Htoken Hkey).
Defined.

Lemma empty_sequence_group_witness :
  inherits_hasOwnProperty empty_ids ∧
  token_at "DELETE FROM t WHERE id IN :ids;" "DELETE FROM t WHERE id IN " "ids" ";" ∧
  own empty_ids !! "ids" = Some (Array []) ∧
  ∃ sqlL paramsL sqlR paramsR,
    SqlPilot "DELETE FROM t WHERE id IN " empty_ids = Normal (sqlL, paramsL) ∧
    SqlPilot ";" empty_ids = Normal (sqlR, paramsR) ∧
    SqlPilot "DELETE FROM t WHERE id IN :ids;" empty_ids
    = Normal (sqlL +:+ "()" +:+ sqlR, paramsL ++ paramsR).
Proof.
  assert (inherits_hasOwnProperty empty_ids) as Hnative
    by (vm_compute; reflexivity).
  assert (token_at "DELETE FROM t WHERE id IN :ids;"
                   "DELETE FROM t WHERE id IN " "ids" ";") as Htoken
    by (split; [reflexivity | reflexivity | discriminate | reflexivity]).
  assert (own empty_ids !! "ids" = Some (Array [])) as Hkey
    by (vm_compute; reflexivity).
  split; [exact Hnative|]. split; [exact Htoken|]. split; [exact Hkey|].
  exact (empty_sequence_group _ _ _ _ _ Hnative Htoken Hkey).
Defined.

Lemma repeated_scalar_key_witness :
  inherits_hasOwnProperty user_bindings ∧
  own user_bindings !! "userId" = Some (Scalar 1) ∧
  ∃ out outs,
    SqlPilot "(" user_bindings = Normal out ∧
    Forall2 (λ segment o, SqlPilot segment user_bindings = Normal o)
            [", 101), ("; ", 102), ("; ", 103)"] outs ∧
    SqlPilot ("(" +:+ occurrences "userId" [", 101), ("; ", 102), ("; ", 103)"])
             user_bindings
    = Normal (out.1 +:+ resolved_text outs,
              out.2 ++ resolved_values (Scalar 1) outs) ∧
    (¬ has_placeholder "(" →
     Forall (λ segment, ¬ has_placeholder segment)
            [", 101), ("; ", 102), ("; ", 103)"] →
     out.2 ++ resolved_values (Scalar 1) outs = replicate 3 (Scalar 1)).
Proof.
  assert (inherits_hasOwnProperty user_bindings) as Hnative
    by (vm_compute; reflexivity).
  assert (own user_bindings !! "userId" = Some (Scalar 1)) as Hkey
    by (vm_compute; reflexivity).
  split; [exact Hnative|]. split; [exact Hkey|].
  apply (repeated_scalar_key user_bindings "userId" (Scalar 1) "("
           [", 101), ("; ", 102), ("; ", 103)"] Hnative).
  - reflexivity.
  - discriminate.
  - repeat constructor.
  - exact Hkey.
  - reflexivity.
Defined.

Lemma output_text_independent_of_values_witness :
  inherits_hasOwnProperty post_bindings ∧
  inherits_hasOwnProperty post_bindings_text ∧
  shape <$> own post_bindings = shape <$> own post_bindings_text ∧
  ∃ newSql newParams1 newParams2,
    SqlPilot "SELECT * FROM posts WHERE live = :live AND id IN :postIds"
             post_bindings
    = Normal (newSql, newParams1) ∧
    SqlPilot "SELECT * FROM posts WHERE live = :live AND id IN :postIds"
             post_bindings_text
    = Normal (newSql, newParams2).
Proof.
  assert (inherits_hasOwnProperty post_bindings) as Hnative1
    by (vm_compute; reflexivity).
  assert (inherits_hasOwnProperty post_bindings_text) as Hnative2
    by (vm_compute; reflexivity).
  assert (shape <$> own post_bindings = shape <$> own post_bindings_text)
    as Hshapes by (vm_compute; reflexivity).
  split; [exact Hnative1|]. split; [exact Hnative2|]. split; [exact Hshapes|].
  exact (output_text_independent_of_values _ _ _ Hnative1 Hnative2 Hshapes).
Defined.

(** * Further properties of the function *)

(** ** Cutting a concatenation *)

Lemma take_word_empty_iff s : take_word s = "" ↔ starts_with_word_char s = false.
Proof. destruct s as [|c s]; simpl; [done|]. by destruct (is_word_char c). Qed.

Lemma take_word_boundary s t :
  starts_with_word_char t = false → take_word (s +:+ t) = take_word s.
Proof.
  intros Ht. induction s as [|c s IH]; simpl.
  - by apply take_word_empty_iff.
  - destruct (is_word_char c); [by rewrite IH | done].
Qed.

Lemma drop_word_boundary s t :
  starts_with_word_char t = false → drop_word (s +:+ t) = drop_word s +:+ t.
Proof.
  intros Ht. induction s as [|c s IH]; simpl.
  - destruct t as [|d t]; simpl in *; [done|]. by rewrite Ht.
  - destruct (is_word_char c); [by rewrite IH | done].
Qed.

(** A template can be cut where no word character follows: no match spans
    the cut. *)
Lemma scan_app s t :
  starts_with_word_char t = false → scan (s +:+ t) = scan s ++ scan t.
Proof.
  intros Ht. induction s as [|c s IH1 IH2] using scan_ind.
  - by rewrite scan_nil.
  - change (String c s +:+ t) with (String c (s +:+ t)).
    rewrite !scan_cons, take_word_boundary, drop_word_boundary by done.
    destruct ((c =? ":")%char && negb (String.eqb (take_word s) "")); simpl;
      f_equal; done.
Qed.

Lemma text_of_app pieces1 pieces2 :
  text_of (pieces1 ++ pieces2) = text_of pieces1 +:+ text_of pieces2.
Proof.
  induction pieces1 as [|[c|key] rest IH]; simpl; [done| |].
  - by rewrite IH.
  - by rewrite IH, app_assoc_string.
Qed.

(** A text without colon holds no match, whatever follows it. *)
Lemma scan_no_colon w rest :
  no_colon w = true → scan (w +:+ rest) = lits w ++ scan rest.
Proof.
  induction w as [|c w IH]; simpl; [done|].
  intros [Hc Hw]%andb_prop. rewrite scan_cons.
  apply negb_true_iff in Hc. rewrite Hc. simpl. by rewrite IH.
Qed.

Lemma no_colon_app s t : no_colon (s +:+ t) = no_colon s && no_colon t.
Proof.
  induction s as [|c s IH]; simpl; [done|]. by rewrite IH, andb_assoc.
Qed.

Lemma no_colon_group {A} (items : list (option (value A))) :
  no_colon (String.concat ", " (mark <$> items)) = true.
Proof.
  induction items as [|slot items IH]; [done|].
  destruct items as [|slot' items]; [by destruct slot|].
  change (String.concat ", " (mark <$> slot :: slot' :: items))
    with (mark slot +:+ ", " +:+ String.concat ", " (mark <$> slot' :: items)).
  rewrite !no_colon_app, IH. by destruct slot.
Qed.

(** The placeholders of a template are what the pattern matches. *)
Lemma has_placeholder_keys sql :
  has_placeholder sql ↔ keys_of (scan sql) ≠ [].
Proof.
  split.
  - rewrite <- find_placeholder_spec.
    induction sql as [|c s IH]; simpl; [done|].
    rewrite scan_cons. intros Hfind.
    destruct ((c =? ":")%char && negb (String.eqb (take_word s) "")) eqn:Hm;
      simpl; [done|].
    apply IH. apply orb_prop in Hfind as [Hhere|Hs]; [|done].
    apply andb_prop in Hhere as [Hc Hstart]. rewrite Hc in Hm. simpl in Hm.
    apply negb_false_iff, String.eqb_eq, take_word_empty_iff in Hm. congruence.
  - intros Hkeys. destruct (find_placeholder sql) eqn:Hfind.
    + by apply find_placeholder_spec.
    + destruct Hkeys. by apply scan_no_placeholder, no_placeholder_found.
Qed.

(** ** Scanning the output *)

Section second_pass_facts.
Context {A : Type}.
Implicit Types (params : object A) (pieces : list piece) (key sql : string).

(** A replacement holds no colon unless it is the match itself. *)
Lemma replacement_no_colon params key :
  is_Some (own params !! key) → no_colon (replacement params key).1 = true.
Proof.
  intros [v Hkey]. unfold replacement. rewrite Hkey.
  destruct v as [| |items]; simpl; [done..|].
  by rewrite no_colon_app, no_colon_group.
Qed.

(** No replacement starts with a word character. *)
Lemma replacement_starts params key rest :
  starts_with_word_char ((replacement params key).1 +:+ rest) = false.
Proof.
  unfold replacement. by destruct (own params !! key) as [[| |items]|].
Qed.

(** The output starts with a word character only if the template does. *)
Lemma rendered_starts params sql :
  starts_with_word_char sql = false →
  starts_with_word_char (rendered params (scan sql)) = false.
Proof.
  destruct sql as [|c s]; [by rewrite scan_nil|]. simpl. intros Hc.
  rewrite scan_cons.
  destruct ((c =? ":")%char && negb (String.eqb (take_word s) "")); simpl.
  - apply replacement_starts.
  - done.
Qed.

(** Scanning the output finds the matches with an unbound key, and nothing
    else: a replacement holds no colon, and no word character is put behind
    a colon or a key. *)
Lemma scan_rendered params sql :
  scan (rendered params (scan sql)) = residual params (scan sql).
Proof.
  induction sql as [|c s IH1 IH2] using scan_ind; [by rewrite scan_nil|].
  rewrite scan_cons.
  destruct ((c =? ":")%char && negb (String.eqb (take_word s) "")) eqn:Hm.
  - apply andb_prop in Hm as [_ Hne].
    change (residual params (Tok (take_word s) :: scan (drop_word s)))
      with (residual_piece params (Tok (take_word s))
            ++ residual params (scan (drop_word s))).
    rewrite <- IH2. simpl.
    destruct (own params !! take_word s) as [v|] eqn:Hkey.
    + apply scan_no_colon, replacement_no_colon. by rewrite Hkey.
    + unfold replacement. rewrite Hkey. simpl.
      rewrite (scan_token _ "" (take_word s)
                 (rendered params (scan (drop_word s)))).
      * by rewrite scan_nil.
      * split; [done | apply take_word_all_word | |].
        -- intros Heq. by rewrite Heq in Hne.
        -- apply rendered_starts, drop_word_starts.
  - change (residual params (Lit c :: scan s))
      with (Lit c :: residual params (scan s)).
    rewrite <- IH1. simpl. rewrite scan_cons.
    destruct (c =? ":")%char eqn:Hc; simpl in *; [|done].
    apply negb_false_iff, String.eqb_eq, take_word_empty_iff in Hm.
    apply (rendered_starts params), take_word_empty_iff in Hm.
    by rewrite Hm.
Qed.

Lemma rendered_lits params w pieces :
  rendered params (lits w ++ pieces) = w +:+ rendered params pieces.
Proof. induction w as [|c w IH]; simpl; [done|]. by rewrite IH. Qed.

Lemma collected_lits params w pieces :
  collected params (lits w ++ pieces) = collected params pieces.
Proof. induction w as [|c w IH]; simpl; done. Qed.

Lemma keys_of_lits w pieces : keys_of (lits w ++ pieces) = keys_of pieces.
Proof. induction w as [|c w IH]; simpl; done. Qed.

Lemma rendered_residual params pieces :
  rendered params (residual params pieces) = rendered params pieces.
Proof.
  induction pieces as [|[c|key] rest IH]; simpl; [done| |].
  - by rewrite IH.
  - fold (residual params rest).
    destruct (own params !! key) as [v|] eqn:Hkey.
    + by rewrite rendered_lits, IH.
    + simpl. by rewrite IH.
Qed.

Lemma collected_residual params pieces :
  collected params (residual params pieces) = [].
Proof.
  induction pieces as [|[c|key] rest IH]; simpl; [done..|].
  fold (residual params rest).
  destruct (own params !! key) as [v|] eqn:Hkey.
  - by rewrite collected_lits.
  - simpl. unfold replacement. by rewrite Hkey.
Qed.

Lemma keys_of_residual params pieces :
  keys_of (residual params pieces)
  = filter (λ key, own params !! key = None) (keys_of pieces).
Proof.
  induction pieces as [|[c|key] rest IH]; simpl; [done..|].
  fold (residual params rest). rewrite filter_cons.
  destruct (own params !! key) as [v|] eqn:Hkey.
  - rewrite keys_of_lits, IH. by rewrite decide_False.
  - simpl. by rewrite IH.
Qed.

(** The values bound along a cut template, match by match. *)
Lemma collected_keys params pieces :
  collected params pieces
  = flat_map (λ key, (replacement params key).2) (keys_of pieces).
Proof.
  induction pieces as [|[c|key] rest IH]; simpl; [done..|]. by rewrite IH.
Qed.

(** A binding for a key that is not matched changes nothing. *)
Lemma replacement_with_binding params key (v : value A) key' :
  key' ≠ key →
  replacement (with_binding params key v) key' = replacement params key'.
Proof.
  intros Hne. unfold replacement, with_binding. simpl.
  by rewrite lookup_insert_ne.
Qed.

Lemma rendered_with_binding params key (v : value A) pieces :
  key ∉ keys_of pieces →
  rendered (with_binding params key v) pieces = rendered params pieces.
Proof.
  induction pieces as [|[c|key'] rest IH]; simpl; [done| |].
  - intros Hkey. by rewrite IH.
  - intros [Hne Hrest]%not_elem_of_cons.
    by rewrite IH, replacement_with_binding.
Qed.

Lemma collected_with_binding params key (v : value A) pieces :
  key ∉ keys_of pieces →
  collected (with_binding params key v) pieces = collected params pieces.
Proof.
  induction pieces as [|[c|key'] rest IH]; simpl; [done| |].
  - intros Hkey. by rewrite IH.
  - intros [Hne Hrest]%not_elem_of_cons.
    by rewrite IH, replacement_with_binding.
Qed.

Lemma get_hasOwnProperty_with_binding params key (v : value A) :
  key ≠ "hasOwnProperty" →
  get_hasOwnProperty (with_binding params key v) = get_hasOwnProperty params.
Proof.
  intros Hne. unfold get_hasOwnProperty, with_binding. simpl.
  by rewrite lookup_insert_ne.
Qed.

End second_pass_facts.

(** ** What a returned pair is *)

Section returned.
Context {A : Type}.
Implicit Types (params : object A) (newParams : list (value A)).
Implicit Types (pieces : list piece) (key sql newSql : string).

Lemma rendered_no_match params pieces :
  keys_of pieces = [] →
  rendered params pieces = text_of pieces ∧ collected params pieces = [].
Proof.
  induction pieces as [|[c|key] rest IH]; simpl; [done| |done].
  intros Hrest. destruct (IH Hrest) as [-> ->]. done.
Qed.

(** Whether the test can be called or not, a returned pair is the rendered
    text and the collected values. *)
Lemma SqlPilot_returned sql params newSql newParams :
  SqlPilot sql params = Normal (newSql, newParams) →
  newSql = rendered params (scan sql) ∧
  newParams = collected params (scan sql) ∧
  (inherits_hasOwnProperty params ∨ keys_of (scan sql) = []).
Proof.
  destruct (decide (inherits_hasOwnProperty params)) as [Hnative|Hnot].
  - rewrite SqlPilot_native by done. intros [= <- <-]. auto.
  - unfold SqlPilot. rewrite replace_not_callable by done.
    destruct (keys_of (scan sql)) eqn:Hkeys; [|done]. intros [= <- <-].
    destruct (rendered_no_match params (scan sql) Hkeys) as [-> ->]. auto.
Qed.

Lemma filter_unbound_nil params (keys : list string) :
  Forall (λ key, is_Some (own params !! key)) keys →
  filter (λ key, own params !! key = None) keys = [].
Proof.
  induction 1 as [|key keys [v Hkey] _ IH]; [done|].
  rewrite filter_cons, Hkey, IH. done.
Qed.

(** X1. Scalar substitution: when [params.hasOwnProperty] is the inherited
    method, a token whose key is bound to a value that is not an array
    ([undefined] included: the test is on the property, not on its value) is
    replaced, in place, by one [?], and the value is appended once, between
    the parameters of what precedes and of what follows. *)
Theorem scalar_substitution sql pre key post params (v : value A) :
  inherits_hasOwnProperty params →
  token_at sql pre key post →
  own params !! key = Some v → shape v = None →
  ∃ sqlL paramsL sqlR paramsR,
    SqlPilot pre params = Normal (sqlL, paramsL) ∧
    SqlPilot post params = Normal (sqlR, paramsR) ∧
    SqlPilot sql params
    = Normal (sqlL +:+ "?" +:+ sqlR, paramsL ++ [v] ++ paramsR).
Proof.
  intros Hnative Htoken Hkey Hscalar.
  exists (rendered params (scan pre)), (collected params (scan pre)),
    (rendered params (scan post)), (collected params (scan post)).
  rewrite !SqlPilot_native by done. split; [done|]. split; [done|].
  rewrite (scan_token _ _ _ _ Htoken), rendered_app, collected_app. simpl.
  unfold replacement. rewrite Hkey. by destruct v.
Qed.


(** X3. Rewriting distributes over concatenation at a cut that no word
    character follows: the output of [sql1 + sql2] is the output of [sql1]
    followed by that of [sql2], the parameters likewise, and the call throws
    when one of the two does. *)
Theorem concatenation sql1 sql2 params :
  starts_with_word_char sql2 = false →
  SqlPilot (sql1 +:+ sql2) params
  = ('(out1, params1) ← SqlPilot sql1 params;
     '(out2, params2) ← SqlPilot sql2 params;
     Normal (out1 +:+ out2, params1 ++ params2)).
Proof.
  intros Hcut.
  destruct (decide (inherits_hasOwnProperty params)) as [Hnative|Hnot].
  - rewrite !SqlPilot_native by done. simpl.
    by rewrite scan_app, rendered_app, collected_app.
  - unfold SqlPilot. rewrite !replace_not_callable by done.
    rewrite scan_app, keys_of_app, text_of_app by done.
    destruct (keys_of (scan sql1)); [|done].
    by destruct (keys_of (scan sql2)).
Qed.

(** X4. A binding whose key the template does not use changes nothing:
    adding it to the bindings (or replacing its value) gives the same result,
    unless it is named [hasOwnProperty]. *)
Theorem unused_binding_ignored sql params key (v : value A) :
  key ∉ keys_of (scan sql) →
  key ≠ "hasOwnProperty" →
  SqlPilot sql (with_binding params key v) = SqlPilot sql params.
Proof.
  intros Hunused Hname.
  pose proof (get_hasOwnProperty_with_binding params key v Hname) as Hmethod.
  destruct (decide (inherits_hasOwnProperty params)) as [Hnative|Hnot].
  - assert (inherits_hasOwnProperty (with_binding params key v)) as Hnative'.
    { unfold inherits_hasOwnProperty. by rewrite Hmethod. }
    rewrite !SqlPilot_native by done.
    by rewrite rendered_with_binding, collected_with_binding.
  - assert (¬ inherits_hasOwnProperty (with_binding params key v)) as Hnot'.
    { unfold inherits_hasOwnProperty. by rewrite Hmethod. }
    unfold SqlPilot. by rewrite !replace_not_callable.
Qed.

(** X5. The placeholders left in the output are the placeholders of the
    template whose key is unbound, in the same order: a replacement never
    forms a new placeholder with the text around it, nor lengthens or
    shortens a key that passes through. *)
Theorem remaining_placeholders sql params newSql newParams :
  SqlPilot sql params = Normal (newSql, newParams) →
  keys_of (scan newSql)
  = filter (λ key, own params !! key = None) (keys_of (scan sql)).
Proof.
  intros (-> & _ & _)%SqlPilot_returned.
  by rewrite scan_rendered, keys_of_residual.
Qed.

(** X6. Rewriting is idempotent with the same bindings: a second call on the
    returned text, with the bindings of the first, returns that text
    unchanged and no parameter. *)
Theorem rewrite_again_same_bindings sql params newSql newParams :
  SqlPilot sql params = Normal (newSql, newParams) →
  SqlPilot newSql params = Normal (newSql, []).
Proof.
  intros Hcall.
  destruct (SqlPilot_returned _ _ _ _ Hcall) as (-> & -> & [Hnative|Hkeys]).
  - rewrite SqlPilot_native by done.
    by rewrite scan_rendered, rendered_residual, collected_residual.
  - destruct (rendered_no_match params (scan sql) Hkeys) as [Htext Hnone].
    rewrite Htext, Hnone, text_of_scan in Hcall.
    by rewrite Htext, text_of_scan.
Qed.

(** X7. When every placeholder of the template has its key bound, the
    returned text holds no placeholder: no substring of it matches
    [:[a-zA-Z0-9_]+]. *)
Theorem fully_bound_leaves_no_placeholder sql params newSql newParams :
  SqlPilot sql params = Normal (newSql, newParams) →
  Forall (λ key, is_Some (own params !! key)) (keys_of (scan sql)) →
  ¬ has_placeholder newSql.
Proof.
  intros (-> & _ & _)%SqlPilot_returned Hbound.
  rewrite has_placeholder_keys, scan_rendered, keys_of_residual.
  rewrite filter_unbound_nil by done. by intros [].
Qed.

(** X8. The parameters follow the template: they are, for each match of the
    pattern from left to right, the elements of the array its key is bound
    to (what the array holds, a hole holds nothing), or the one value it is
    bound to, or nothing when the key is unbound. *)
Theorem parameters_in_template_order sql params newSql newParams :
  SqlPilot sql params = Normal (newSql, newParams) →
  newParams
  = flat_map (λ key, match own params !! key with
                     | Some (Array items) => elements items
                     | Some v => [v]
                     | None => []
                     end) (keys_of (scan sql)).
Proof.
  intros (_ & -> & _)%SqlPilot_returned. rewrite collected_keys.
  induction (keys_of (scan sql)) as [|key keys IH]; simpl; [done|].
  rewrite IH. f_equal. unfold replacement.
  by destruct (own params !! key) as [[| |items]|].
Qed.

End returned.

(** ** Instances of the further properties *)

Lemma scalar_substitution_witness :
  inherits_hasOwnProperty undefined_bound ∧
  token_at "x = :a AND y = :b" "x = " "a" " AND y = :b" ∧
  own undefined_bound !! "a" = Some Undefined ∧
  ∃ sqlL paramsL sqlR paramsR,
    SqlPilot "x = " undefined_bound = Normal (sqlL, paramsL) ∧
    SqlPilot " AND y = :b" undefined_bound = Normal (sqlR, paramsR) ∧
    SqlPilot "x = :a AND y = :b" undefined_bound
    = Normal (sqlL +:+ "?" +:+ sqlR, paramsL ++ [Undefined] ++ paramsR).
Proof.
  assert (inherits_hasOwnProperty undefined_bound) as Hnative
    by (vm_compute; reflexivity).
  assert (token_at "x = :a AND y = :b" "x = " "a" " AND y = :b") as Htoken
    by (split; [reflexivity | reflexivity | discriminate | reflexivity]).
  assert (own undefined_bound !! "a" = Some Undefined) as Hkey
    by (vm_compute; reflexivity).
  split; [exact Hnative|]. split; [exact Htoken|]. split; [exact Hkey|].
  exact (scalar_substitution _ _ _ _ _ _ Hnative Htoken Hkey eq_refl).
Defined.


Lemma concatenation_witness :
  starts_with_word_char "; SELECT :b" = false ∧
  SqlPilot ("SELECT :a" +:+ "; SELECT :b") undefined_bound
  = ('(out1, params1) ← SqlPilot "SELECT :a" undefined_bound;
     '(out2, params2) ← SqlPilot "; SELECT :b" undefined_bound;
     Normal (out1 +:+ out2, params1 ++ params2)).
Proof.
  assert (starts_with_word_char "; SELECT :b" = false) as Hcut by reflexivity.
  split; [exact Hcut|].
  exact (concatenation "SELECT :a" "; SELECT :b" undefined_bound Hcut).
Defined.

Lemma unused_binding_ignored_witness :
  ("unused" ∉ keys_of (scan "a = :x AND b = :y")) ∧
  "unused" ≠ "hasOwnProperty" ∧
  SqlPilot "a = :x AND b = :y" (with_binding x_bound "unused" (Scalar 9))
  = SqlPilot "a = :x AND b = :y" x_bound.
Proof.
  assert ("unused" ∉ keys_of (scan "a = :x AND b = :y")) as Hunused.
  { assert (keys_of (scan "a = :x AND b = :y") = ["x"; "y"]) as ->
      by (vm_compute; reflexivity).
    intros [Heq|[Heq|Hnil%elem_of_nil]%elem_of_cons]%elem_of_cons;
      [discriminate Heq | discriminate Heq | exact Hnil]. }
  assert ("unused" ≠ "hasOwnProperty") as Hname by discriminate.
  split; [exact Hunused|]. split; [exact Hname|].
  exact (unused_binding_ignored _ x_bound _ (Scalar 9) Hunused Hname).
Defined.

Lemma remaining_placeholders_witness :
  SqlPilot "a = :x AND b = :y" x_bound = Normal ("a = ? AND b = :y", [Scalar 1]) ∧
  keys_of (scan "a = ? AND b = :y")
  = filter (λ key, own x_bound !! key = None)
           (keys_of (scan "a = :x AND b = :y")).
Proof.
  assert (SqlPilot "a = :x AND b = :y" x_bound
          = Normal ("a = ? AND b = :y", [Scalar 1])) as Hcall
    by (vm_compute; reflexivity).
  split; [exact Hcall|].
  exact (remaining_placeholders _ _ _ _ Hcall).
Defined.

Lemma rewrite_again_same_bindings_witness :
  SqlPilot "a = :x AND b = :y" x_bound = Normal ("a = ? AND b = :y", [Scalar 1]) ∧
  SqlPilot "a = ? AND b = :y" x_bound = Normal ("a = ? AND b = :y", []).
Proof.
  assert (SqlPilot "a = :x AND b = :y" x_bound
          = Normal ("a = ? AND b = :y", [Scalar 1])) as Hcall
    by (vm_compute; reflexivity).
  split; [exact Hcall|].
  exact (rewrite_again_same_bindings _ _ _ _ Hcall).
Defined.

Lemma fully_bound_leaves_no_placeholder_witness :
  SqlPilot "SELECT * FROM posts WHERE live = :live AND id IN :postIds"
           post_bindings
  = Normal ("SELECT * FROM posts WHERE live = ? AND id IN (?, ?, ?)",
            [Scalar 0; Scalar 1; Scalar 2; Scalar 3]) ∧
  ¬ has_placeholder "SELECT * FROM posts WHERE live = ? AND id IN (?, ?, ?)".
Proof.
  assert (SqlPilot "SELECT * FROM posts WHERE live = :live AND id IN :postIds"
                   post_bindings
          = Normal ("SELECT * FROM posts WHERE live = ? AND id IN (?, ?, ?)",
                    [Scalar 0; Scalar 1; Scalar 2; Scalar 3])) as Hcall
    by (vm_compute; reflexivity).
  split; [exact Hcall|].
  apply (fully_bound_leaves_no_placeholder _ _ _ _ Hcall).
  assert (keys_of (scan "SELECT * FROM posts WHERE live = :live AND id IN :postIds")
          = ["live"; "postIds"]) as -> by (vm_compute; reflexivity).
  repeat constructor; vm_compute; eauto.
Defined.

Lemma parameters_in_template_order_witness :
  SqlPilot "SELECT * FROM posts WHERE live = :live AND id IN :postIds"
           post_bindings
  = Normal ("SELECT * FROM posts WHERE live = ? AND id IN (?, ?, ?)",
            [Scalar 0; Scalar 1; Scalar 2; Scalar 3]) ∧
  [Scalar 0; Scalar 1; Scalar 2; Scalar 3]
  = flat_map (λ key, match own post_bindings !! key with
                     | Some (Array items) => elements items
                     | Some v => [v]
                     | None => []
                     end)
      (keys_of (scan "SELECT * FROM posts WHERE live = :live AND id IN :postIds")).
Proof.
  assert (SqlPilot "SELECT * FROM posts WHERE live = :live AND id IN :postIds"
                   post_bindings
          = Normal ("SELECT * FROM posts WHERE live = ? AND id IN (?, ?, ?)",
                    [Scalar 0; Scalar 1; Scalar 2; Scalar 3])) as Hcall
    by (vm_compute; reflexivity).
  split; [exact Hcall|].
  exact (parameters_in_template_order _ _ _ _ Hcall).
Defined.
